(** * Core event interfaces of [sqlalchemy.events]

    A shallow embedding of [lib/sqlalchemy/events.py]: the event catalogs
    [DDLEvents], [PoolEvents] and [EngineEvents], the target resolver
    [PoolEvents.accept_with] and the registration hook
    [EngineEvents.listen], over a small model of the Python object store
    (classes with their ancestors, instances with their attribute
    dictionaries) and of callables with side effects. *)

From stdpp Require Import gmap strings list fin_maps.
From Stdlib Require Import ZArith.

Open Scope string_scope.
Open Scope list_scope.

(** ** Python values, exceptions and the object store *)

(** Values that travel through the event machinery.  [VRef o] is a
    reference to the heap object [o] (an instance or a class): two
    references denote the same object exactly when their ids are equal. *)
#[warnings="-register-all"]
Inductive value :=
| VNone
| VBool (b : bool)
| VInt (z : Z)
| VStr (s : string)
| VTuple (vs : list value)
| VRef (o : nat).

(** A raised exception: the name of its class and its message. *)
Record pyexc := PyExc { exc_class : string; exc_msg : string }.

Inductive result (A : Type) :=
| Ok (a : A)
| Raise (e : pyexc).
Arguments Ok {A} a.
Arguments Raise {A} e.

(** A heap object is a class (with the classes it derives from, in method
    resolution order) or an instance of a class; both own a dictionary. *)
Inductive kind :=
| KClass (ancestors : list nat)
| KInst (cls : nat).

Record object := Object { ob_kind : kind; ob_dict : gmap string value }.

(** The classes [events.py] imports by name. *)
Definition Engine : nat := 0.
Definition Pool : nat := 1.
Definition Connection : nat := 2.

Definition AttributeError (name : string) : pyexc :=
  PyExc "AttributeError" name.
Definition TypeError (msg : string) : pyexc :=
  PyExc "TypeError" msg.
Definition ArgumentError (msg : string) : pyexc :=
  PyExc "ArgumentError" msg.
Definition DisconnectionError (msg : string) : pyexc :=
  PyExc "DisconnectionError" msg.

Section Store.

Implicit Types (h : gmap nat object) (o c : nat) (v : value).

(** [__mro__] of a class: itself, then its ancestors. *)
Definition mro_of h c : list nat :=
  match h !! c with
  | Some (Object (KClass ancestors) _) => c :: ancestors
  | _ => [c]
  end.

(** [isinstance(v, type)] *)
Definition isinstance_type h v : bool :=
  match v with
  | VRef o =>
      match h !! o with
      | Some (Object (KClass _) _) => true
      | _ => false
      end
  | _ => false
  end.

(** [issubclass(c, base)] for class objects. *)
Definition issubclass_id h c (base : nat) : bool :=
  bool_decide (base ∈ mro_of h c).

Definition issubclass h v (base : nat) : bool :=
  match v with
  | VRef c => issubclass_id h c base
  | _ => false
  end.

(** [isinstance(v, base)] for a class [base] other than [type]. *)
Definition isinstance h v (base : nat) : bool :=
  match v with
  | VRef o =>
      match h !! o with
      | Some (Object (KInst c) _) => issubclass_id h c base
      | _ => false
      end
  | _ => false
  end.

(** Attribute lookup through the dictionaries of a list of classes. *)
Fixpoint mro_lookup h (classes : list nat) (name : string) : option value :=
  match classes with
  | [] => None
  | c :: rest =>
      match h !! c with
      | Some ob =>
          match ob_dict ob !! name with
          | Some v => Some v
          | None => mro_lookup h rest name
          end
      | None => mro_lookup h rest name
      end
  end.

(** [v.name]: the object's own dictionary first, then its classes. *)
Definition getattr h v (name : string) : result value :=
  match v with
  | VRef o =>
      match h !! o with
      | Some (Object k d) =>
          match d !! name with
          | Some x => Ok x
          | None =>
              let classes :=
                match k with
                | KClass ancestors => ancestors
                | KInst c => mro_of h c
                end in
              match mro_lookup h classes name with
              | Some x => Ok x
              | None => Raise (AttributeError name)
              end
          end
      | None => Raise (AttributeError name)
      end
  | _ => Raise (AttributeError name)
  end.

(** [v.name = x]: writes the object's own dictionary. *)
Definition setattr h v (name : string) (x : value)
  : result (gmap nat object) :=
  match v with
  | VRef o =>
      match h !! o with
      | Some (Object k d) => Ok (<[o := Object k (<[name := x]> d)]> h)
      | None => Raise (AttributeError name)
      end
  | _ => Raise (AttributeError name)
  end.

(** [a is b] where [b] is a known heap object. *)
Definition is_object v o : bool :=
  match v with
  | VRef o' => bool_decide (o' = o)
  | _ => false
  end.

End Store.

(** The entry [name] of the own dictionary of object [a], if any. *)
Definition own_attr (h : gmap nat object) (a : nat) (name : string)
  : option value :=
  h !! a ≫= λ ob, ob_dict ob !! name.

(** ** Callables

    A listener is a Python callable: applied to positional arguments it
    may change the world [W] outside the event system and either returns
    a value or raises. *)
Definition callable (W : Type) : Type :=
  list value → W → W * result value.

(** ** Event catalogs: the method names of the three [Events] classes *)

Module DDLEvents.
Definition events : list string :=
  ["on_before_create"; "on_after_create"; "on_before_drop"; "on_after_drop"].
End DDLEvents.

Module PoolEvents.

Definition events : list string :=
  ["on_connect"; "on_first_connect"; "on_checkout"; "on_checkin"].

(** [on_first_connect] is documented as called exactly once. *)
Definition once_events : list string := ["on_first_connect"].

(** [PoolEvents.accept_with(target)].  A class that derives from neither
    [Engine] nor [Pool] leaves the inner conditional without a [return]:
    the call evaluates to [None]. *)
Definition accept_with (h : gmap nat object) (target : value)
  : result value :=
  if isinstance_type h target then
    if issubclass h target Engine then Ok (VRef Pool)
    else if issubclass h target Pool then Ok target
    else Ok VNone
  else if isinstance h target Engine then getattr h target "pool"
  else Ok target.

End PoolEvents.

(** ** The interpreter state and its monad *)

(** The store seen by registration and dispatch: the heap of objects, the
    dispatcher of every target that has one, the [once] events that have
    fired, and the world the listeners act on.

    Modelled from the spec: [sqlalchemy/event.py], which implements the
    dispatchers, is not part of this file's source; the layout of
    [tables] and [fired] follows the spec's data model (a Dispatcher per
    target maps an event name to the ordered sequence of its listener
    entries; a class owns the class-level table its instances consult at
    fire time; a [once] event is PENDING until it is marked FIRED). *)
Record state (W : Type) := State {
  heap : gmap nat object;
  tables : gmap nat (gmap string (list (callable W)));
  fired : gset (nat * string);
  world : W
}.
Arguments State {W} _ _ _ _.
Arguments heap {W} _.
Arguments tables {W} _.
Arguments fired {W} _.
Arguments world {W} _.

(** Computations that read and write the state and may raise; what was
    written before an exception stays written. *)
Definition M (W A : Type) : Type := state W → state W * result A.

Definition ret {W A} (a : A) : M W A := λ s, (s, Ok a).
Definition raise {W A} (e : pyexc) : M W A := λ s, (s, Raise e).
Definition bind {W A B} (m : M W A) (k : A → M W B) : M W B :=
  λ s, match m s with
       | (s', Ok a) => k a s'
       | (s', Raise e) => (s', Raise e)
       end.

Notation "'let!' x ':=' m 'in' k" := (bind m (λ x, k))
  (at level 10, x name, m at level 100, k at level 200).
Notation "'do!' m 'in' k" := (bind m (λ _, k))
  (at level 10, m at level 100, k at level 200).

(** Lift a read of the heap. *)
Definition read_heap {W A} (f : gmap nat object → result A) : M W A :=
  λ s, (s, f (heap s)).

(** Lift a write of the heap. *)
Definition write_heap {W}
    (f : gmap nat object → result (gmap nat object)) : M W unit :=
  λ s, match f (heap s) with
       | Ok h' => (State h' (tables s) (fired s) (world s), Ok tt)
       | Raise e => (s, Raise e)
       end.

Module EngineEvents.

Definition events : list string :=
  ["on_before_execute"; "on_after_execute";
   "on_before_cursor_execute"; "on_after_cursor_execute";
   "on_begin"; "on_rollback"; "on_commit"; "on_savepoint";
   "on_rollback_savepoint"; "on_release_savepoint";
   "on_begin_twophase"; "on_prepare_twophase";
   "on_rollback_twophase"; "on_commit_twophase"].

(** The events whose listeners may be registered with [retval=True]. *)
Definition retval_events : list string :=
  ["on_before_execute"; "on_before_cursor_execute"].

Definition retval_message : string :=
  "Only the 'on_before_execute' and 'on_before_cursor_execute' engine event listeners accept the 'retval=True' argument.".

Section Listen.

Context {W : Type}.

(** [sqlalchemy.engine.base._listener_connection_cls(cls, dispatch)],
    which builds the connection class that fires the events, and
    [event.Events.listen(fn, identifier, target)], the registration of
    the base class, are imported by [events.py]: they are parameters
    here. *)
Variable _listener_connection_cls : value → value → value.
Variable Events_listen : callable W → string → value → M W unit.

(** The two closures [wrap] that [listen] builds around [orig_fn].
    Each takes exactly the positional parameters of its event. *)
Definition wrap_before_execute (orig_fn : callable W) : callable W :=
  λ args w,
    match args with
    | [conn; clauseelement; multiparams; params] =>
        match orig_fn [conn; clauseelement; multiparams; params] w with
        | (w', Ok _) => (w', Ok (VTuple [clauseelement; multiparams; params]))
        | (w', Raise e) => (w', Raise e)
        end
    | _ => (w, Raise (TypeError "wrap() takes exactly 4 arguments"))
    end.

Definition wrap_before_cursor_execute (orig_fn : callable W) : callable W :=
  λ args w,
    match args with
    | [conn; cursor; statement; parameters; context; executemany] =>
        match orig_fn [conn; cursor; statement; parameters;
                       context; executemany] w with
        | (w', Ok _) => (w', Ok (VTuple [statement; parameters]))
        | (w', Raise e) => (w', Raise e)
        end
    | _ => (w, Raise (TypeError "wrap() takes exactly 6 arguments"))
    end.

(** [if target.Connection is Connection: target.Connection = ...] *)
Definition swap_connection_cls (target : value) : M W unit :=
  let! c := read_heap (λ h, getattr h target "Connection") in
  if is_object c Connection then
    let! d := read_heap (λ h, getattr h target "dispatch") in
    write_heap (λ h, setattr h target "Connection"
                       (_listener_connection_cls (VRef Connection) d))
  else ret tt.

(** [EngineEvents.listen(fn, identifier, target, retval=False)] *)
Definition listen (fn : callable W) (identifier : string)
    (target : value) (retval : bool) : M W unit :=
  do! swap_connection_cls target in
  if negb retval then
    let fn :=
      if bool_decide (identifier = "on_before_execute")
      then wrap_before_execute fn
      else if bool_decide (identifier = "on_before_cursor_execute")
      then wrap_before_cursor_execute fn
      else fn in
    Events_listen fn identifier target
  else if bool_decide (identifier ∉ retval_events) then
    raise (ArgumentError retval_message)
  else
    Events_listen fn identifier target.

End Listen.

End EngineEvents.

(** ** The dispatch core *)

Module EventCore.


Section Core.

Context {W : Type}.

Implicit Types (t : gmap nat (gmap string (list (callable W)))).

(** The listener entries of target [o] for event [ev], oldest first;
    a target without a Dispatcher has none. *)
Definition entries t (o : nat) (ev : string) : list (callable W) :=
  match t !! o with
  | Some d => default [] (d !! ev)
  | None => []
  end.

(** Modelled from the spec: the append step of the Registration API,
    absent from the source.  A new entry goes after the existing
    entries of the target's table, which is created when missing. *)
Definition append_entry (fn : callable W) (ev : string) (o : nat) t
  : gmap nat (gmap string (list (callable W))) :=
  <[o := <[ev := entries t o ev ++ [fn]]> (default ∅ (t !! o))]> t.

(** The table after the listeners [fns] have been appended in turn. *)
Definition append_all (fns : list (callable W)) (ev : string) (o : nat) t
  : gmap nat (gmap string (list (callable W))) :=
  foldl (λ t' fn, append_entry fn ev o t') t fns.

(** Modelled from the spec: [event.Events.listen(fn, identifier,
    target)], absent from the source; it appends [fn] to the table of
    the (already resolved) target. *)
Definition Events_listen (fn : callable W) (identifier : string)
    (target : value) : M W unit :=
  λ s, match target with
       | VRef o =>
           (State (heap s) (append_entry fn identifier o (tables s))
                  (fired s) (world s), Ok tt)
       | _ => (s, Raise (TypeError "target has no dispatcher"))
       end.

(** Registration of several listeners, one after the other. *)
Fixpoint listen_all (fns : list (callable W)) (identifier : string)
    (target : value) : M W unit :=
  match fns with
  | [] => ret tt
  | fn :: rest =>
      do! Events_listen fn identifier target in
      listen_all rest identifier target
  end.


(** The classes whose class-level tables target [o] inherits: the
    method resolution order of its class for an instance, the proper
    ancestors for a class. *)
Definition inherited_from (h : gmap nat object) (o : nat) : list nat :=
  match h !! o with
  | Some (Object (KInst c) _) => mro_of h c
  | Some (Object (KClass ancestors) _) => ancestors
  | None => []
  end.

(** Modelled from the spec: the firing order of the Invocation Core,
    absent from the source: the class-level entries, oldest ancestor
    first, then the entries of the target itself, each group in
    registration order. *)
Definition firing_order (h : gmap nat object) t (o : nat) (ev : string)
  : list (callable W) :=
  concat (map (λ a, entries t a ev) (rev (inherited_from h o)))
  ++ entries t o ev.

(** Modelled from the spec: a fire of an event without [retval].
    Every listener gets the original arguments; the first exception
    aborts the remaining listeners and propagates. *)
Fixpoint fire_plain (ls : list (callable W)) (args : list value) (w : W)
  : W * result unit :=
  match ls with
  | [] => (w, Ok tt)
  | l :: rest =>
      match l args w with
      | (w', Ok _) => fire_plain rest args w'
      | (w', Raise e) => (w', Raise e)
      end
  end.

(** The parameters a returned tuple replaces: [(clauseelement,
    multiparams, params)] for [on_before_execute], [(statement,
    parameters)] for [on_before_cursor_execute], as the two [wrap]
    closures of [EngineEvents.listen] return them. *)
Definition rewrite_args (ev : string) (args : list value) (r : value)
  : result (list value) :=
  if bool_decide (ev = "on_before_execute") then
    match args, r with
    | [conn; _; _; _], VTuple [clauseelement; multiparams; params] =>
        Ok [conn; clauseelement; multiparams; params]
    | _, _ => Raise (TypeError "cannot unpack the listener's result")
    end
  else if bool_decide (ev = "on_before_cursor_execute") then
    match args, r with
    | [conn; cursor; _; _; context; executemany],
      VTuple [statement; parameters] =>
        Ok [conn; cursor; statement; parameters; context; executemany]
    | _, _ => Raise (TypeError "cannot unpack the listener's result")
    end
  else Raise (TypeError "not a retval event").

(** Modelled from the spec: a fire of a [retval] event.  The tuple a
    listener returns replaces the arguments of the next listener, and
    the last one is returned to the triggering operation. *)
Fixpoint fire_retval (ev : string) (ls : list (callable W))
    (args : list value) (w : W) : W * result (list value) :=
  match ls with
  | [] => (w, Ok args)
  | l :: rest =>
      match l args w with
      | (w', Ok r) =>
          match rewrite_args ev args r with
          | Ok args' => fire_retval ev rest args' w'
          | Raise e => (w', Raise e)
          end
      | (w', Raise e) => (w', Raise e)
      end
  end.

Definition fire (ev : string) (ls : list (callable W))
    (args : list value) (w : W) : W * result (list value) :=
  if bool_decide (ev ∈ EngineEvents.retval_events) then
    fire_retval ev ls args w
  else
    match fire_plain ls args w with
    | (w', Ok _) => (w', Ok args)
    | (w', Raise e) => (w', Raise e)
    end.

Definition is_once (ev : string) : bool :=
  bool_decide (ev ∈ PoolEvents.once_events).

(** Modelled from the spec: [dispatch(target, eventName, *args)] of
    the Invocation Core, absent from the source.  The target is
    resolved by the catalog's resolver; a [once] event that has fired
    for the target is a no-op; otherwise the listeners run in firing
    order and, after a firing that did not raise, a [once] event is
    marked as fired for the target. *)
Definition dispatch (resolve : gmap nat object → value → result value)
    (ev : string) (target : value) (args : list value)
  : M W (list value) :=
  let! tgt := read_heap (λ h, resolve h target) in
  match tgt with
  | VRef o =>
      λ s,
        if is_once ev && bool_decide ((o, ev) ∈ fired s) then (s, Ok args)
        else
          match fire ev (firing_order (heap s) (tables s) o ev)
                     args (world s) with
          | (w', Ok args') =>
              (State (heap s) (tables s)
                     (if is_once ev then {[ (o, ev) ]} ∪ fired s
                      else fired s) w',
               Ok args')
          | (w', Raise e) =>
              (State (heap s) (tables s) (fired s) w', Raise e)
          end
  | _ => ret args
  end.

(** The resolver of a catalog whose targets are already canonical. *)
Definition accept_identity (h : gmap nat object) (target : value)
  : result value := Ok target.

(** [n] successive triggers of the same event on the same target;
    the outcome of each attempt is collected. *)
Fixpoint trigger_n (n : nat)
    (resolve : gmap nat object → value → result value)
    (ev : string) (target : value) (args : list value) (s : state W)
  : state W * list (result (list value)) :=
  match n with
  | 0 => (s, [])
  | S n' =>
      let '(s', r) := dispatch resolve ev target args s in
      let '(s'', rs) := trigger_n n' resolve ev target args s' in
      (s'', r :: rs)
  end.

End Core.

End EventCore.

(** ** Checkout with retry *)

Module Checkout.

(** The pool collaborator, as far as checkout needs it: the id of the
    next physical connection it would open, the connections it has
    discarded, and the world the listeners act on. *)
Record pool_state (W : Type) := PoolState {
  next_conn : nat;
  discarded : list nat;
  pool_world : W
}.
Arguments PoolState {W} _ _ _.
Arguments next_conn {W} _.
Arguments discarded {W} _.
Arguments pool_world {W} _.

(** The designated disconnection signal. *)
Definition is_disconnection (e : pyexc) : bool :=
  bool_decide (exc_class e = "DisconnectionError").

Section Checkout.

Context {W : Type}.

(** Modelled from the spec: the checkout of the pool collaborator
    ([sqlalchemy/pool.py], absent from the source).  The
    [on_checkout] listeners [ls] are fired on the connection [conn];
    a disconnection signal discards [conn] and fires the whole chain
    again on a freshly opened connection, at most [retries] more
    times; any other exception propagates. *)
Fixpoint checkout (retries : nat) (ls : list (callable W)) (conn : nat)
    (record proxy : value) (p : pool_state W)
  : pool_state W * result nat :=
  match EventCore.fire_plain ls [VRef conn; record; proxy]
                             (pool_world p) with
  | (w', Ok _) => (PoolState (next_conn p) (discarded p) w', Ok conn)
  | (w', Raise e) =>
      if is_disconnection e then
        match retries with
        | 0 => (PoolState (next_conn p) (conn :: discarded p) w', Raise e)
        | S r =>
            checkout r ls (next_conn p) record proxy
              (PoolState (S (next_conn p)) (conn :: discarded p) w')
        end
      else (PoolState (next_conn p) (discarded p) w', Raise e)
  end.

End Checkout.

End Checkout.

(** ** A sample store *)

Module Sample.

Definition EventListenerConnection : nat := 6.

(** The classes [Engine], [Pool], [Connection]; a class deriving from
    both [Engine] and [Pool]; the unrelated class 4; a subclass of
    [Pool]; the connection class built for listeners; the engine 10
    with its pool 11 and dispatcher handle 12; the spare pool 13. *)
Definition h0 : gmap nat object :=
  list_to_map
    [(Engine, Object (KClass [])
                {[ "Connection" := VRef Connection ]});
     (Pool, Object (KClass []) ∅);
     (Connection, Object (KClass []) ∅);
     (3, Object (KClass [Engine; Pool]) ∅);
     (4, Object (KClass []) ∅);
     (5, Object (KClass [Pool]) ∅);
     (EventListenerConnection, Object (KClass [Connection]) ∅);
     (10, Object (KInst Engine)
            {[ "pool" := VRef 11; "dispatch" := VRef 12 ]});
     (11, Object (KInst Pool) ∅);
     (12, Object (KInst 4) ∅);
     (13, Object (KInst 5) ∅)].

Definition _listener_connection_cls (cls dispatch : value) : value :=
  VRef EventListenerConnection.

(** The class of the exception a computation ended with, if any. *)
Definition raised_class {A} (r : result A) : option string :=
  match r with
  | Raise e => Some (exc_class e)
  | Ok _ => None
  end.

(** The engine 10 after its connection class has been swapped. *)
Definition h1 : gmap nat object :=
  <[10 := Object (KInst Engine)
            (<["Connection" := VRef EventListenerConnection]>
               {[ "pool" := VRef 11; "dispatch" := VRef 12 ]})]> h0.

(** Listeners over a world that logs the calls. *)
Definition log (tag : string) (r : value) : callable (list string) :=
  λ _ w, (w ++ [tag], Ok r).


Definition s0 : state (list string) := State h0 ∅ ∅ [].

(** A [retval=True] listener of [on_before_execute]: it logs its call
    and replaces the statement. *)
Definition rewrite_stmt (tag : string) (stmt : string)
  : callable (list string) :=
  λ args w,
    match args with
    | [conn; clauseelement; multiparams; params] =>
        (w ++ [tag], Ok (VTuple [VStr stmt; multiparams; params]))
    | _ => (w, Raise (TypeError "rewrite_stmt() takes exactly 4 arguments"))
    end.

(** A checkout listener that rejects the physical connection 0. *)
Definition stale_check : callable (list string) :=
  λ args w,
    match args with
    | VRef 0 :: _ => (w ++ ["stale"], Raise (DisconnectionError "gone"))
    | _ => (w ++ ["fresh"], Ok VNone)
    end.

(** The pool 11 with one [on_first_connect] listener. *)
Definition s_first : state (list string) :=
  State h0 {[ 11 := {[ "on_first_connect" := [log "first" VNone] ]} ]} ∅ [].

End Sample.

(** ** Further sample stores *)

Module Sample2.

(** The sample heap with a second engine, 14, that has no attribute of
    its own: no [pool], no [dispatch], and the connection class of its
    class. *)
Definition h2 : gmap nat object :=
  <[14 := Object (KInst Engine) ∅]> Sample.h0.

(** The same heap, where the class [Engine] also carries a dispatcher. *)
Definition h3 : gmap nat object :=
  <[Engine := Object (KClass [])
                {[ "Connection" := VRef Connection;
                   "dispatch" := VRef 12 ]}]> h2.

Definition s2 : state (list string) := State h2 ∅ ∅ [].
Definition s3 : state (list string) := State h3 ∅ ∅ [].


End Sample2.

(** * Properties *)

(** ** Target resolution of the pool catalog *)

Section AcceptWith.

Import PoolEvents.

Implicit Types (h : gmap nat object) (target : value).

Lemma isinstance_not_type h target base :
  isinstance h target base = true → isinstance_type h target = false.
Proof.
  destruct target as [| | | | |o]; simpl; try done.
  destruct (h !! o) as [[[anc|c] d]|]; done.
Qed.

Lemma setattr_lookup h o name x h' :
  setattr h (VRef o) name x = Ok h' →
  ∃ k d, h !! o = Some (Object k d)
         ∧ h' = <[o := Object k (<[name := x]> d)]> h.
Proof.
  simpl. destruct (h !! o) as [[k d]|]; [|done].
  intros [= <-]. by exists k, d.
Qed.

Lemma setattr_mro_of h o name x h' c :
  setattr h (VRef o) name x = Ok h' → mro_of h' c = mro_of h c.
Proof.
  intros (k & d & Ho & ->)%setattr_lookup. unfold mro_of.
  destruct (decide (o = c)) as [->|Hne].
  - by rewrite lookup_insert_eq, Ho.
  - by rewrite lookup_insert_ne.
Qed.

Lemma getattr_setattr h o name x h' :
  setattr h (VRef o) name x = Ok h' → getattr h' (VRef o) name = Ok x.
Proof.
  intros (k & d & Ho & ->)%setattr_lookup. simpl.
  by rewrite lookup_insert_eq, lookup_insert_eq.
Qed.

Lemma setattr_isinstance h o name x h' base :
  setattr h (VRef o) name x = Ok h' →
  isinstance h' (VRef o) base = isinstance h (VRef o) base.
Proof.
  intros Hset. pose proof (λ c, setattr_mro_of _ _ _ _ _ c Hset) as Hmro.
  apply setattr_lookup in Hset as (k & d & Ho & ->). simpl.
  rewrite lookup_insert_eq, Ho. destruct k as [anc|c]; [done|].
  unfold issubclass_id. by rewrite <- (Hmro c).
Qed.

Lemma accept_with_engine_class h target :
  isinstance_type h target = true →
  issubclass h target Engine = true →
  accept_with h target = Ok (VRef Pool).
Proof. unfold accept_with. by intros -> ->. Qed.

Lemma accept_with_pool_class h target :
  isinstance_type h target = true →
  issubclass h target Engine = false →
  issubclass h target Pool = true →
  accept_with h target = Ok target.
Proof. unfold accept_with. by intros -> -> ->. Qed.

Lemma accept_with_other_class h target :
  isinstance_type h target = true →
  issubclass h target Engine = false →
  issubclass h target Pool = false →
  accept_with h target = Ok VNone.
Proof. unfold accept_with. by intros -> -> ->. Qed.

Lemma accept_with_engine_instance h target :
  isinstance h target Engine = true →
  accept_with h target = getattr h target "pool".
Proof.
  intros Hi. unfold accept_with.
  by rewrite (isinstance_not_type _ _ _ Hi), Hi.
Qed.

Lemma accept_with_passthrough h target :
  isinstance_type h target = false →
  isinstance h target Engine = false →
  accept_with h target = Ok target.
Proof. unfold accept_with. by intros -> ->. Qed.

(** C3, as amended.  Given as a class, [Engine] or a subclass of it
    resolves to the class [Pool]; a class that is [Pool] or a subclass of
    it and does not also derive from [Engine] resolves to itself; an
    [Engine] instance resolves to what its [pool] attribute holds in the
    heap the resolution runs on, so that after the attribute is
    reassigned the new pool is found. *)
Theorem accept_with_resolution h target :
  (isinstance_type h target = true →
   issubclass h target Engine = true →
   accept_with h target = Ok (VRef Pool))
  ∧ (isinstance_type h target = true →
     issubclass h target Engine = false →
     issubclass h target Pool = true →
     accept_with h target = Ok target)
  ∧ (isinstance h target Engine = true →
     accept_with h target = getattr h target "pool")
  ∧ (∀ o p' h',
       target = VRef o →
       isinstance h target Engine = true →
       setattr h target "pool" p' = Ok h' →
       accept_with h' target = Ok p').
Proof.
  repeat split.
  - apply accept_with_engine_class.
  - apply accept_with_pool_class.
  - apply accept_with_engine_instance.
  - intros o p' h' -> Hi Hset.
    rewrite accept_with_engine_instance
      by (by rewrite (setattr_isinstance _ _ _ _ _ _ Hset)).
    by apply getattr_setattr with h.
Qed.

(** C3 as stated fails: the class 3 derives from [Pool], and from
    [Engine] too; it resolves to [Pool], not to itself. *)
Lemma accept_with_pool_subclass_counterexample :
  isinstance_type Sample.h0 (VRef 3) = true
  ∧ issubclass Sample.h0 (VRef 3) Pool = true
  ∧ accept_with Sample.h0 (VRef 3) = Ok (VRef Pool)
  ∧ accept_with Sample.h0 (VRef 3) ≠ Ok (VRef 3).
Proof. vm_compute. repeat split; congruence. Qed.

Lemma accept_with_resolution_witness :
  accept_with Sample.h0 (VRef Engine) = Ok (VRef Pool)
  ∧ accept_with Sample.h0 (VRef 5) = Ok (VRef 5)
  ∧ accept_with Sample.h0 (VRef 10) = Ok (VRef 11)
  ∧ (∀ h', setattr Sample.h0 (VRef 10) "pool" (VRef 13) = Ok h' →
           accept_with h' (VRef 10) = Ok (VRef 13)).
Proof.
  destruct (accept_with_resolution Sample.h0 (VRef Engine)) as (H1 & _).
  destruct (accept_with_resolution Sample.h0 (VRef 5)) as (_ & H2 & _).
  destruct (accept_with_resolution Sample.h0 (VRef 10)) as (_ & _ & H3 & H4).
  split; [apply H1; reflexivity|].
  split; [apply H2; reflexivity|].
  split; [rewrite H3; reflexivity|].
  intros h' Hset. apply (H4 10 (VRef 13) h'); [reflexivity|reflexivity|exact Hset].
Defined.

(** C4, as amended.  A candidate that is neither a class nor an
    [Engine] instance (a [Pool] instance, or any other value) is
    returned unchanged; a class that derives from neither [Engine] nor
    [Pool] resolves to [None]; neither case raises. *)
Theorem accept_with_unmatched h target :
  (isinstance_type h target = false →
   isinstance h target Engine = false →
   accept_with h target = Ok target)
  ∧ (isinstance_type h target = true →
     issubclass h target Engine = false →
     issubclass h target Pool = false →
     accept_with h target = Ok VNone).
Proof.
  split.
  - apply accept_with_passthrough.
  - apply accept_with_other_class.
Qed.

(** C4 as stated fails: the class 4 derives from neither [Engine] nor
    [Pool], and is not returned unchanged. *)
Lemma accept_with_plain_class_counterexample :
  isinstance_type Sample.h0 (VRef 4) = true
  ∧ issubclass Sample.h0 (VRef 4) Engine = false
  ∧ issubclass Sample.h0 (VRef 4) Pool = false
  ∧ accept_with Sample.h0 (VRef 4) = Ok VNone
  ∧ accept_with Sample.h0 (VRef 4) ≠ Ok (VRef 4).
Proof. vm_compute. repeat split; congruence. Qed.

Lemma accept_with_unmatched_witness :
  accept_with Sample.h0 (VRef 11) = Ok (VRef 11)
  ∧ accept_with Sample.h0 (VInt 7) = Ok (VInt 7)
  ∧ accept_with Sample.h0 (VRef 4) = Ok VNone.
Proof.
  destruct (accept_with_unmatched Sample.h0 (VRef 11)) as (H1 & _).
  destruct (accept_with_unmatched Sample.h0 (VInt 7)) as (H2 & _).
  destruct (accept_with_unmatched Sample.h0 (VRef 4)) as (_ & H3).
  split; [apply H1; reflexivity|].
  split; [apply H2; reflexivity|].
  apply H3; reflexivity.
Defined.

End AcceptWith.

(** ** Registration of engine listeners *)

Section EngineListen.

Import EngineEvents.

Context {W : Type}.
Variable _listener_connection_cls : value → value → value.
Variable Events_listen : callable W → string → value → M W unit.

Local Abbreviation swap := (swap_connection_cls _listener_connection_cls).
Local Abbreviation listen := (EngineEvents.listen _listener_connection_cls Events_listen).

(** The swap of the connection class only writes the heap. *)
Lemma swap_connection_cls_frame target (s s' : state W) r :
  swap target s = (s', r) →
  tables s' = tables s ∧ fired s' = fired s ∧ world s' = world s.
Proof.
  unfold swap_connection_cls, bind, read_heap, write_heap, ret.
  destruct (getattr (heap s) target "Connection") as [c|e];
    [|by intros [= <- _]].
  destruct (is_object c Connection); [|by intros [= <- _]].
  destruct (getattr (heap s) target "dispatch") as [d|e];
    [|by intros [= <- _]].
  destruct (setattr (heap s) target "Connection" _);
    by intros [= <- _].
Qed.

(** A connection class that is not [Connection] is left alone. *)
Lemma swap_connection_cls_replaced target (s : state W) c :
  getattr (heap s) target "Connection" = Ok c →
  is_object c Connection = false →
  swap target s = (s, Ok tt).
Proof.
  intros Hc Hne. unfold swap_connection_cls, bind, read_heap, ret.
  by rewrite Hc, Hne.
Qed.

(** The plain [Connection] class is replaced, in the target's own
    dictionary. *)
Lemma swap_connection_cls_plain o k d disp (s : state W) :
  heap s !! o = Some (Object k d) →
  getattr (heap s) (VRef o) "Connection" = Ok (VRef Connection) →
  getattr (heap s) (VRef o) "dispatch" = Ok disp →
  swap (VRef o) s =
    (State (<[o := Object k (<["Connection" :=
               _listener_connection_cls (VRef Connection) disp]> d)]> (heap s))
           (tables s) (fired s) (world s), Ok tt).
Proof.
  intros Ho Hc Hd.
  unfold swap_connection_cls, bind, read_heap, write_heap, ret.
  rewrite Hc. cbn [is_object]. rewrite ?bool_decide_eq_true_2 by done.
  rewrite Hd. cbn [setattr]. by rewrite Ho.
Qed.

(** C1, as amended.  Registering with [retval=True] an event other than
    [on_before_execute] and [on_before_cursor_execute] raises during the
    call to [listen], whatever the base registration would do: it is not
    reached, and the dispatch tables, the fired marks and the world are
    those from before the call.  When the connection class of the target
    could be examined the exception is the [ArgumentError] of [listen],
    raised on the store the examination left. *)
Theorem listen_retval_rejected (fn : callable W) identifier target
    (s : state W) :
  identifier ∉ retval_events →
  ∃ s' e,
    listen fn identifier target true s = (s', Raise e)
    ∧ tables s' = tables s ∧ fired s' = fired s ∧ world s' = world s
    ∧ (∀ s1, swap target s = (s1, Ok tt) →
             s' = s1 ∧ e = ArgumentError retval_message).
Proof.
  intros Hid. unfold EngineEvents.listen, bind.
  destruct (swap target s) as [s1 [[]|e]] eqn:Hswap.
  - exists s1, (ArgumentError retval_message). cbn [negb].
    rewrite (bool_decide_eq_true_2 (identifier ∉ retval_events)) by done.
    split; [done|].
    destruct (swap_connection_cls_frame _ _ _ _ Hswap) as (-> & -> & ->).
    do 3 (split; [done|]). by intros ? [= <-].
  - exists s1, e. split; [done|].
    destruct (swap_connection_cls_frame _ _ _ _ Hswap) as (-> & -> & ->).
    do 3 (split; [done|]). by intros ? [=].
Qed.

(** C2.  With [retval=False] the listener handed to the base
    registration for [on_before_execute] and for
    [on_before_cursor_execute] is the wrapper around the callback; when
    the callback returns, whatever it returns, the wrapper has had the
    callback's effect on the world and returns the parameters it was
    called with. *)
Theorem listen_wraps_callback (fn : callable W) target :
  listen fn "on_before_execute" target false
    = (do! swap target in
       Events_listen (wrap_before_execute fn) "on_before_execute" target)
  ∧ listen fn "on_before_cursor_execute" target false
    = (do! swap target in
       Events_listen (wrap_before_cursor_execute fn)
                     "on_before_cursor_execute" target)
  ∧ (∀ conn clauseelement multiparams params w w' r,
       fn [conn; clauseelement; multiparams; params] w = (w', Ok r) →
       wrap_before_execute fn [conn; clauseelement; multiparams; params] w
         = (w', Ok (VTuple [clauseelement; multiparams; params])))
  ∧ (∀ conn cursor statement parameters context executemany w w' r,
       fn [conn; cursor; statement; parameters; context; executemany] w
         = (w', Ok r) →
       wrap_before_cursor_execute fn
         [conn; cursor; statement; parameters; context; executemany] w
         = (w', Ok (VTuple [statement; parameters]))).
Proof.
  repeat split.
  - intros conn clauseelement multiparams params w w' r Hfn.
    unfold wrap_before_execute. by rewrite Hfn.
  - intros conn cursor statement parameters context executemany w w' r Hfn.
    unfold wrap_before_cursor_execute. by rewrite Hfn.
Qed.

(** C10.  A call to [listen] on a target whose connection class is the
    plain [Connection] first stores the listener connection class in
    the target, and what follows runs on that store: the base
    registration for a legal call, and for [retval=True] on an event
    that does not accept it the [ArgumentError], with the swap kept
    and no listener registered.  A connection class other than
    [Connection] is left alone, so a target is swapped at most once. *)
Theorem listen_swaps_connection_cls (fn : callable W) identifier retval
    o k d disp (s : state W) :
  heap s !! o = Some (Object k d) →
  getattr (heap s) (VRef o) "Connection" = Ok (VRef Connection) →
  getattr (heap s) (VRef o) "dispatch" = Ok disp →
  let cls := _listener_connection_cls (VRef Connection) disp in
  let s1 := State (<[o := Object k (<["Connection" := cls]> d)]> (heap s))
                  (tables s) (fired s) (world s) in
  getattr (heap s1) (VRef o) "Connection" = Ok cls
  ∧ (retval = false →
     listen fn identifier (VRef o) retval s
       = Events_listen
           (if bool_decide (identifier = "on_before_execute")
            then wrap_before_execute fn
            else if bool_decide (identifier = "on_before_cursor_execute")
            then wrap_before_cursor_execute fn
            else fn) identifier (VRef o) s1)
  ∧ (retval = true → identifier ∈ retval_events →
     listen fn identifier (VRef o) retval s
       = Events_listen fn identifier (VRef o) s1)
  ∧ (retval = true → identifier ∉ retval_events →
     listen fn identifier (VRef o) retval s
       = (s1, Raise (ArgumentError retval_message)))
  ∧ (is_object cls Connection = false → swap (VRef o) s1 = (s1, Ok tt)).
Proof.
  intros Ho Hc Hd cls s1.
  pose proof (swap_connection_cls_plain o k d disp s Ho Hc Hd) as Hswap.
  fold cls in Hswap. fold s1 in Hswap.
  assert (getattr (heap s1) (VRef o) "Connection" = Ok cls) as Hget.
  { simpl. by rewrite lookup_insert_eq, lookup_insert_eq. }
  split; [done|]. split; [|split; [|split]].
  - intros ->. unfold EngineEvents.listen, bind. by rewrite Hswap.
  - intros -> Hin. unfold EngineEvents.listen, bind. rewrite Hswap.
    cbn [negb].
    by rewrite (bool_decide_eq_false_2 (identifier ∉ retval_events))
      by (by intros []).
  - intros -> Hnin. unfold EngineEvents.listen, bind. rewrite Hswap.
    cbn [negb].
    by rewrite (bool_decide_eq_true_2 (identifier ∉ retval_events)).
  - intros Hne. by apply swap_connection_cls_replaced with cls.
Qed.

End EngineListen.

Section EngineListenSample.

Import EngineEvents Sample.

Local Abbreviation listen :=
  (EngineEvents.listen _listener_connection_cls EventCore.Events_listen).

(** C1 as stated fails: the exception raised for [retval=True] on
    [on_after_create] is an [ArgumentError], not a [ConfigurationError]. *)
Lemma listen_retval_error_class_counterexample :
  raised_class
    (listen (log "cb" VNone) "on_after_create" (VRef 10) true s0).2
    = Some "ArgumentError"
  ∧ raised_class
      (listen (log "cb" VNone) "on_after_create" (VRef 10) true s0).2
    ≠ Some "ConfigurationError".
Proof. vm_compute. split; congruence. Qed.

Lemma listen_retval_rejected_witness :
  ∃ s' e,
    listen (log "cb" VNone) "on_after_create" (VRef 10) true s0
      = (s', Raise e)
    ∧ tables s' = tables s0 ∧ fired s' = fired s0 ∧ world s' = world s0
    ∧ (∀ s1,
         swap_connection_cls _listener_connection_cls (VRef 10) s0
           = (s1, Ok tt) →
         s' = s1 ∧ e = ArgumentError retval_message).
Proof.
  apply (listen_retval_rejected _listener_connection_cls
           EventCore.Events_listen (log "cb" VNone) "on_after_create"
           (VRef 10) s0).
  compute_done.
Defined.

Lemma listen_wraps_callback_witness :
  wrap_before_execute (log "cb" (VInt 42))
    [VRef 10; VStr "select 1"; VTuple []; VNone] []
    = (["cb"], Ok (VTuple [VStr "select 1"; VTuple []; VNone]))
  ∧ wrap_before_cursor_execute (log "cb" (VInt 42))
      [VRef 10; VNone; VStr "select 1"; VTuple []; VNone; VBool false] []
    = (["cb"], Ok (VTuple [VStr "select 1"; VTuple []])).
Proof.
  destruct (listen_wraps_callback _listener_connection_cls
              EventCore.Events_listen (log "cb" (VInt 42)) (VRef 10))
    as (_ & _ & H1 & H2).
  split.
  - apply (H1 _ _ _ _ [] ["cb"] (VInt 42)). reflexivity.
  - apply (H2 _ _ _ _ _ _ [] ["cb"] (VInt 42)). reflexivity.
Defined.

Lemma listen_swaps_connection_cls_witness :
  getattr h1 (VRef 10) "Connection" = Ok (VRef EventListenerConnection)
  ∧ listen (log "cb" VNone) "on_after_create" (VRef 10) true s0
    = (State h1 ∅ ∅ [], Raise (ArgumentError retval_message))
  ∧ swap_connection_cls _listener_connection_cls (VRef 10)
      (State h1 ∅ ∅ ([] : list string))
    = (State h1 ∅ ∅ [], Ok tt).
Proof.
  destruct (listen_swaps_connection_cls _listener_connection_cls
              EventCore.Events_listen (log "cb" VNone) "on_after_create"
              true 10 (KInst Engine)
              {[ "pool" := VRef 11; "dispatch" := VRef 12 ]} (VRef 12) s0)
    as (H1 & _ & _ & H2 & H3); [reflexivity..|].
  split; [exact H1|]. split.
  - apply H2; [reflexivity|]. vm_compute.
    inversion 1 as [|? ? ? Hin]; subst.
    inversion Hin as [|? ? ? Hin']; subst. inversion Hin'.
  - apply H3. reflexivity.
Defined.

End EngineListenSample.

(** ** Dispatch tables and firing order *)

Section CoreProps.

Import EventCore.

Context {W : Type}.

Implicit Types (t : gmap nat (gmap string (list (callable W)))).
Implicit Types (s : state W) (fn : callable W) (ev : string) (o c : nat).

Lemma entries_append_entry_eq fn ev o t :
  entries (append_entry fn ev o t) o ev = entries t o ev ++ [fn].
Proof.
  unfold append_entry. unfold entries at 1.
  by rewrite lookup_insert_eq, lookup_insert_eq.
Qed.

Lemma entries_append_entry_ne fn ev o t o' ev' :
  o' ≠ o → entries (append_entry fn ev o t) o' ev' = entries t o' ev'.
Proof.
  intros Hne. unfold append_entry, entries.
  by rewrite lookup_insert_ne.
Qed.

Lemma entries_append_all_eq fns ev o t :
  entries (append_all fns ev o t) o ev = entries t o ev ++ fns.
Proof.
  revert t. induction fns as [|fn fns IH]; intros t; simpl.
  - by rewrite app_nil_r.
  - unfold append_all in *. simpl. rewrite IH, entries_append_entry_eq.
    by rewrite <- app_assoc.
Qed.

Lemma entries_append_all_ne fns ev o t o' ev' :
  o' ≠ o → entries (append_all fns ev o t) o' ev' = entries t o' ev'.
Proof.
  intros Hne. revert t. induction fns as [|fn fns IH]; intros t; [done|].
  unfold append_all in *. simpl. by rewrite IH, entries_append_entry_ne.
Qed.


(** Entries inherited from classes other than [o] are not affected by a
    registration on [o]. *)
Lemma inherited_entries_ext t t' ev (classes : list nat) :
  (∀ a, a ∈ classes → entries t' a ev = entries t a ev) →
  concat (map (λ a, entries t' a ev) (rev classes))
  = concat (map (λ a, entries t a ev) (rev classes)).
Proof.
  intros Hext. f_equal. apply map_ext_in. intros a Ha.
  apply Hext. apply list_elem_of_In. by apply in_rev.
Qed.

Lemma firing_order_append_self h fns ev o t :
  o ∉ inherited_from h o →
  firing_order h (append_all fns ev o t) o ev = firing_order h t o ev ++ fns.
Proof.
  intros Hwf. unfold firing_order.
  rewrite entries_append_all_eq, app_assoc. do 2 f_equal.
  apply inherited_entries_ext. intros a Ha.
  apply entries_append_all_ne. by intros ->.
Qed.



(** *** Both registration routes reach one table *)





(** *** Events that fire once *)

Lemma is_once_not_retval ev :
  is_once ev = true → bool_decide (ev ∈ EngineEvents.retval_events) = false.
Proof.
  intros Honce. apply bool_decide_eq_true_1 in Honce.
  unfold PoolEvents.once_events in Honce.
  apply list_elem_of_singleton in Honce as ->. reflexivity.
Qed.

Lemma dispatch_fired resolve ev target args o s :
  is_once ev = true →
  resolve (heap s) target = Ok (VRef o) →
  (o, ev) ∈ fired s →
  dispatch resolve ev target args s = (s, Ok args).
Proof.
  intros Honce Hres Hfired. unfold dispatch, bind, read_heap.
  by rewrite Hres, Honce, (bool_decide_eq_true_2 _ Hfired).
Qed.

Lemma dispatch_marks_fired resolve ev target args o s s' r :
  is_once ev = true →
  resolve (heap s) target = Ok (VRef o) →
  dispatch resolve ev target args s = (s', Ok r) →
  (o, ev) ∈ fired s' ∧ heap s' = heap s.
Proof.
  intros Honce Hres. unfold dispatch, bind, read_heap.
  rewrite Hres, Honce. simpl.
  destruct (bool_decide ((o, ev) ∈ fired s)) eqn:Hf.
  - intros [= <- _]. by apply bool_decide_eq_true_1 in Hf.
  - destruct (fire _ _ _ _) as [w' [a|e]]; [intros [= <- ?]|by intros [=]].
    simpl. split; [|done]. apply elem_of_union_l. by apply elem_of_singleton.
Qed.

Lemma trigger_n_fired resolve ev target args o s n :
  is_once ev = true →
  resolve (heap s) target = Ok (VRef o) →
  (o, ev) ∈ fired s →
  trigger_n n resolve ev target args s = (s, replicate n (Ok args)).
Proof.
  intros Honce Hres Hfired. induction n as [|n IH]; [done|].
  simpl. by rewrite (dispatch_fired _ _ _ _ o), IH.
Qed.

(** C7.  For an event that fires once ([on_first_connect]) and a target
    it resolves to: a dispatch on a target already marked is a no-op; a
    dispatch that does not raise leaves the target marked; hence after a
    firing that did not raise every further trigger, however many, leaves
    the state as it is and returns its arguments untouched; and two
    triggers on an unmarked target with one listener, which returns,
    apply the listener's effect to the world exactly once. *)
Theorem once_event_fires_once resolve ev target o s :
  is_once ev = true →
  resolve (heap s) target = Ok (VRef o) →
  (∀ args, (o, ev) ∈ fired s →
     dispatch resolve ev target args s = (s, Ok args))
  ∧ (∀ args s' r,
       dispatch resolve ev target args s = (s', Ok r) →
       (o, ev) ∈ fired s'
       ∧ ∀ n args',
           trigger_n n resolve ev target args' s'
           = (s', replicate n (Ok args')))
  ∧ (∀ args l w' r,
       (o, ev) ∉ fired s →
       firing_order (heap s) (tables s) o ev = [l] →
       l args (world s) = (w', Ok r) →
       ∃ s2, trigger_n 2 resolve ev target args s = (s2, [Ok args; Ok args])
             ∧ world s2 = w').
Proof.
  intros Honce Hres. split; [|split].
  - intros args Hf. by apply dispatch_fired with o.
  - intros args s' r Hd.
    destruct (dispatch_marks_fired _ _ _ _ _ _ _ _ Honce Hres Hd) as [Hf Hh].
    split; [done|]. intros n args'.
    apply trigger_n_fired with o; [done| by rewrite Hh |done].
  - intros args l w' r Hnf Hord Hl.
    assert (dispatch resolve ev target args s
            = (State (heap s) (tables s) ({[ (o, ev) ]} ∪ fired s) w',
               Ok args)) as Hd.
    { unfold dispatch, bind, read_heap. rewrite Hres, Honce. simpl.
      rewrite (bool_decide_eq_false_2 _ Hnf), Hord.
      unfold fire. rewrite (is_once_not_retval _ Honce). simpl.
      by rewrite Hl. }
    eexists. simpl. rewrite Hd.
    rewrite (dispatch_fired _ _ _ _ o); [done..|]. simpl.
    apply elem_of_union_l. by apply elem_of_singleton.
Qed.

(** *** Chaining of rewritten arguments *)

Variable _listener_connection_cls : value → value → value.

Lemma setattr_inherited_from h v name x h' a :
  setattr h v name x = Ok h' → inherited_from h' a = inherited_from h a.
Proof.
  destruct v as [| | | | |o]; try done. intros Hset.
  pose proof (λ c, setattr_mro_of _ _ _ _ _ c Hset) as Hmro.
  apply setattr_lookup in Hset as (k & d & Ho & ->).
  unfold inherited_from. destruct (decide (o = a)) as [->|Hne].
  - rewrite lookup_insert_eq, Ho. destruct k as [anc|c]; [done|apply Hmro].
  - rewrite lookup_insert_ne by done.
    destruct (h !! a) as [[[anc|c] da]|]; [done|apply Hmro|done].
Qed.

Lemma swap_inherited_from target s s' r a :
  EngineEvents.swap_connection_cls _listener_connection_cls target s = (s', r) →
  inherited_from (heap s') a = inherited_from (heap s) a.
Proof.
  unfold EngineEvents.swap_connection_cls, bind, read_heap, write_heap, ret.
  destruct (getattr (heap s) target "Connection") as [c|e];
    [|by intros [= <- _]].
  destruct (is_object c Connection); [|by intros [= <- _]].
  destruct (getattr (heap s) target "dispatch") as [d|e];
    [|by intros [= <- _]].
  destruct (setattr (heap s) target "Connection" _) as [h'|e] eqn:Hset;
    intros [= <- _]; [|done].
  simpl. by apply setattr_inherited_from with target
                    "Connection" (_listener_connection_cls (VRef Connection) d).
Qed.

Lemma listen_retval_run fn ev o s s1 :
  ev ∈ EngineEvents.retval_events →
  EngineEvents.listen _listener_connection_cls Events_listen
    fn ev (VRef o) true s = (s1, Ok tt) →
  tables s1 = append_entry fn ev o (tables s)
  ∧ fired s1 = fired s ∧ world s1 = world s
  ∧ ∀ a, inherited_from (heap s1) a = inherited_from (heap s) a.
Proof.
  intros Hev. unfold EngineEvents.listen, bind.
  destruct (EngineEvents.swap_connection_cls _ _ s) as [s' [[]|e]] eqn:Hswap; [|done].
  cbn [negb].
  rewrite (bool_decide_eq_false_2 (ev ∉ EngineEvents.retval_events))
    by (by intros []).
  unfold Events_listen. intros [= <-]. simpl.
  destruct (swap_connection_cls_frame _ _ _ _ _ Hswap) as (-> & -> & ->).
  repeat split. intros a. by eapply swap_inherited_from.
Qed.

Lemma firing_order_heap_ext h h' t o ev :
  inherited_from h' o = inherited_from h o →
  firing_order h' t o ev = firing_order h t o ev.
Proof. unfold firing_order. by intros ->. Qed.

Lemma retval_not_once ev :
  ev ∈ EngineEvents.retval_events → is_once ev = false.
Proof.
  unfold EngineEvents.retval_events.
  rewrite !elem_of_cons, elem_of_nil.
  by intros [->|[->|[]]].
Qed.

Lemma dispatch_retval ev o args s :
  ev ∈ EngineEvents.retval_events →
  dispatch accept_identity ev (VRef o) args s
  = match fire_retval ev (firing_order (heap s) (tables s) o ev)
            args (world s) with
    | (w', Ok args') => (State (heap s) (tables s) (fired s) w', Ok args')
    | (w', Raise e) => (State (heap s) (tables s) (fired s) w', Raise e)
    end.
Proof.
  intros Hev. unfold dispatch, bind, read_heap, accept_identity, fire.
  by rewrite (retval_not_once _ Hev), (bool_decide_eq_true_2 _ Hev).
Qed.

(** C5.  On a target without earlier listeners for a [retval] event,
    after [L1] and then [L2] have been registered with [retval=True], a
    dispatch with arguments [args] calls [L1] on [args], replaces the
    rewritable parameters by the tuple [L1] returns, calls [L2] on the
    result and hands the parameters rewritten by [L2] to the triggering
    operation; with [L1] alone the operation receives the parameters
    rewritten by [L1], not the original ones.  For [on_before_execute]
    the returned [(clauseelement, multiparams, params)] replace the
    last three parameters, for [on_before_cursor_execute] the returned
    [(statement, parameters)] replace the third and the fourth. *)
Theorem retval_chain (L1 L2 : callable W) ev o s s1 s2
    args args1 args2 r1 r2 w1 w2 :
  ev ∈ EngineEvents.retval_events →
  o ∉ inherited_from (heap s) o →
  firing_order (heap s) (tables s) o ev = [] →
  EngineEvents.listen _listener_connection_cls Events_listen
    L1 ev (VRef o) true s = (s1, Ok tt) →
  EngineEvents.listen _listener_connection_cls Events_listen
    L2 ev (VRef o) true s1 = (s2, Ok tt) →
  L1 args (world s) = (w1, Ok r1) →
  rewrite_args ev args r1 = Ok args1 →
  L2 args1 w1 = (w2, Ok r2) →
  rewrite_args ev args1 r2 = Ok args2 →
  dispatch accept_identity ev (VRef o) args s2
    = (State (heap s2) (tables s2) (fired s2) w2, Ok args2)
  ∧ dispatch accept_identity ev (VRef o) args s1
    = (State (heap s1) (tables s1) (fired s1) w1, Ok args1)
  ∧ (∀ conn S MP P S2 MP2 P2,
       rewrite_args "on_before_execute" [conn; S; MP; P]
                    (VTuple [S2; MP2; P2])
       = Ok [conn; S2; MP2; P2])
  ∧ (∀ conn cursor S P context executemany S2 P2,
       rewrite_args "on_before_cursor_execute"
                    [conn; cursor; S; P; context; executemany]
                    (VTuple [S2; P2])
       = Ok [conn; cursor; S2; P2; context; executemany]).
Proof.
  intros Hev Hwf Hempty Hl1 Hl2 HL1 Hr1 HL2 Hr2.
  destruct (listen_retval_run _ _ _ _ _ Hev Hl1) as (Ht1 & Hf1 & Hw1 & Hi1).
  destruct (listen_retval_run _ _ _ _ _ Hev Hl2) as (Ht2 & Hf2 & Hw2 & Hi2).
  assert (firing_order (heap s1) (tables s1) o ev = [L1]) as Ho1.
  { rewrite (firing_order_heap_ext (heap s)) by apply Hi1. rewrite Ht1.
    change (append_entry L1 ev o (tables s))
      with (append_all [L1] ev o (tables s)).
    rewrite (firing_order_append_self (heap s) [L1] ev o (tables s) Hwf).
    by rewrite Hempty. }
  assert (firing_order (heap s2) (tables s2) o ev = [L1; L2]) as Ho2.
  { rewrite (firing_order_heap_ext (heap s)) by (by rewrite Hi2, Hi1).
    rewrite Ht2, Ht1.
    change (append_entry L2 ev o (append_entry L1 ev o (tables s)))
      with (append_all [L1; L2] ev o (tables s)).
    rewrite (firing_order_append_self (heap s) [L1; L2] ev o (tables s) Hwf).
    by rewrite Hempty. }
  split; [|split; [|split]].
  - rewrite dispatch_retval, Ho2, Hw2, Hw1 by done. simpl.
    by rewrite HL1, Hr1, HL2, Hr2.
  - rewrite dispatch_retval, Ho1, Hw1 by done. simpl.
    by rewrite HL1, Hr1.
  - done.
  - done.
Qed.

End CoreProps.

(** ** Checkout listeners and the disconnection signal *)

Section CheckoutProps.

Import EventCore Checkout.

Context {W : Type}.

Implicit Types (ls pre post : list (callable W)) (l : callable W).
Implicit Types (p : pool_state W) (w : W).

(** The listeners after the one that raises are not called: the outcome
    of the fire does not depend on them. *)
Lemma fire_plain_abort pre l post args w w1 w2 e :
  fire_plain pre args w = (w1, Ok tt) →
  l args w1 = (w2, Raise e) →
  fire_plain (pre ++ l :: post) args w = (w2, Raise e).
Proof.
  revert w. induction pre as [|l0 pre IH]; intros w Hpre Hl; simpl in *.
  - injection Hpre as ->. by rewrite Hl.
  - destruct (l0 args w) as [w0 [r|e0]]; [|done]. by apply IH.
Qed.

Lemma checkout_bounded retries ls conn record proxy p p' res :
  checkout retries ls conn record proxy p = (p', res) →
  (length (discarded p') ≤ length (discarded p) + S retries)%nat
  ∧ (next_conn p' ≤ next_conn p + retries)%nat.
Proof.
  revert conn p. induction retries as [|r IH]; intros conn p; simpl;
    destruct (fire_plain ls _ (pool_world p)) as [w' [u|e]].
  - intros [= <- _]. simpl. lia.
  - destruct (is_disconnection e); intros [= <- _]; simpl; lia.
  - intros [= <- _]. simpl. lia.
  - destruct (is_disconnection e).
    + intros Hrec. apply IH in Hrec. simpl in Hrec. lia.
    + intros [= <- _]. simpl. lia.
Qed.

(** C8.  When a checkout listener raises the disconnection signal, the
    listeners after it are not called for this fire; with a retry left
    the connection is discarded and the checkout starts over, with the
    whole listener chain, on the next connection the pool opens; with
    none left the signal reaches the caller.  Whatever the listeners do,
    a checkout opens at most as many new connections as the pool allows
    retries, and discards at most one more. *)
Theorem checkout_disconnection_retries pre l post conn record proxy p
    w1 w2 e :
  fire_plain pre [VRef conn; record; proxy] (pool_world p) = (w1, Ok tt) →
  l [VRef conn; record; proxy] w1 = (w2, Raise e) →
  is_disconnection e = true →
  fire_plain (pre ++ l :: post) [VRef conn; record; proxy] (pool_world p)
    = (w2, Raise e)
  ∧ (∀ r,
       checkout (S r) (pre ++ l :: post) conn record proxy p
       = checkout r (pre ++ l :: post) (next_conn p) record proxy
           (PoolState (S (next_conn p)) (conn :: discarded p) w2))
  ∧ checkout 0 (pre ++ l :: post) conn record proxy p
    = (PoolState (next_conn p) (conn :: discarded p) w2, Raise e)
  ∧ (∀ retries p' res,
       checkout retries (pre ++ l :: post) conn record proxy p = (p', res) →
       (length (discarded p') ≤ length (discarded p) + S retries)%nat
       ∧ (next_conn p' ≤ next_conn p + retries)%nat).
Proof.
  intros Hpre Hl He.
  pose proof (fire_plain_abort pre l post _ _ _ _ _ Hpre Hl) as Hfire.
  split; [done|]. split; [|split].
  - intros r. simpl. by rewrite Hfire, He.
  - simpl. by rewrite Hfire, He.
  - intros retries p' res. apply checkout_bounded.
Qed.

End CheckoutProps.

(** ** The properties on the sample store *)

Section CoreSample.

Import EventCore Checkout Sample.

Local Abbreviation listen :=
  (EngineEvents.listen _listener_connection_cls Events_listen).


(** The listeners run in that order when the event is dispatched. *)
Example dispatch_order_sample :
  ∀ s1 s2,
    listen_all [log "c1" VNone; log "c2" VNone] "on_connect" (VRef Pool) s0
      = (s1, Ok tt) →
    listen_all [log "i1" VNone] "on_connect" (VRef 11) s1 = (s2, Ok tt) →
    world (dispatch PoolEvents.accept_with "on_connect" (VRef 10)
             [VRef 100; VRef 101] s2).1
    = ["c1"; "c2"; "i1"].
Proof. intros s1 s2 [= <-] [= <-]. reflexivity. Qed.


Lemma once_event_fires_once_witness :
  (∀ s' r,
     dispatch PoolEvents.accept_with "on_first_connect" (VRef 10)
       [VRef 100; VRef 101] s_first = (s', Ok r) →
     (11, "on_first_connect") ∈ fired s'
     ∧ ∀ n args',
         trigger_n n PoolEvents.accept_with "on_first_connect" (VRef 10)
           args' s'
         = (s', replicate n (Ok args')))
  ∧ ∃ s2,
      trigger_n 2 PoolEvents.accept_with "on_first_connect" (VRef 10)
        [VRef 100; VRef 101] s_first
      = (s2, [Ok [VRef 100; VRef 101]; Ok [VRef 100; VRef 101]])
      ∧ world s2 = ["first"].
Proof.
  destruct (once_event_fires_once PoolEvents.accept_with "on_first_connect"
              (VRef 10) 11 s_first) as (_ & H2 & H3);
    [reflexivity..|].
  split.
  - apply H2.
  - apply (H3 [VRef 100; VRef 101] (log "first" VNone) ["first"] VNone);
      [apply not_elem_of_empty|reflexivity|reflexivity].
Defined.

Lemma retval_chain_witness :
  let s1 := (listen (rewrite_stmt "L1" "select 2") "on_before_execute"
               (VRef 10) true s0).1 in
  let s2 := (listen (rewrite_stmt "L2" "select 3") "on_before_execute"
               (VRef 10) true s1).1 in
  dispatch accept_identity "on_before_execute" (VRef 10)
    [VRef 20; VStr "select 1"; VTuple []; VNone] s2
  = (State (heap s2) (tables s2) (fired s2) ["L1"; "L2"],
     Ok [VRef 20; VStr "select 3"; VTuple []; VNone])
  ∧ dispatch accept_identity "on_before_execute" (VRef 10)
      [VRef 20; VStr "select 1"; VTuple []; VNone] s1
    = (State (heap s1) (tables s1) (fired s1) ["L1"],
       Ok [VRef 20; VStr "select 2"; VTuple []; VNone]).
Proof.
  intros s1 s2.
  destruct (retval_chain _listener_connection_cls
              (rewrite_stmt "L1" "select 2") (rewrite_stmt "L2" "select 3")
              "on_before_execute" 10 s0 s1 s2
              [VRef 20; VStr "select 1"; VTuple []; VNone]
              [VRef 20; VStr "select 2"; VTuple []; VNone]
              [VRef 20; VStr "select 3"; VTuple []; VNone]
              (VTuple [VStr "select 2"; VTuple []; VNone])
              (VTuple [VStr "select 3"; VTuple []; VNone])
              ["L1"] ["L1"; "L2"])
    as (H1 & H2 & _); [compute_done|compute_done|reflexivity..|].
  split; [exact H1|exact H2].
Defined.

Lemma checkout_disconnection_retries_witness :
  fire_plain ([log "ok" VNone] ++ stale_check :: [log "never" VNone])
    [VRef 0; VRef 50; VRef 51] []
  = (["ok"; "stale"], Raise (DisconnectionError "gone"))
  ∧ checkout 1 ([log "ok" VNone] ++ stale_check :: [log "never" VNone])
      0 (VRef 50) (VRef 51) (PoolState 1 [] [])
    = checkout 0 ([log "ok" VNone] ++ stale_check :: [log "never" VNone])
        1 (VRef 50) (VRef 51) (PoolState 2 [0] ["ok"; "stale"])
  ∧ checkout 0 ([log "ok" VNone] ++ stale_check :: [log "never" VNone])
      0 (VRef 50) (VRef 51) (PoolState 1 [] [])
    = (PoolState 1 [0] ["ok"; "stale"], Raise (DisconnectionError "gone")).
Proof.
  destruct (checkout_disconnection_retries [log "ok" VNone] stale_check
              [log "never" VNone] 0 (VRef 50) (VRef 51)
              (PoolState 1 [] []) ["ok"] ["ok"; "stale"]
              (DisconnectionError "gone"))
    as (H1 & H2 & H3 & _); [reflexivity..|].
  split; [exact H1|]. split; [exact (H2 0)|exact H3].
Defined.

(** With one retry the checkout ends on the connection opened after the
    stale one was discarded, and every listener has seen it. *)
Example checkout_retry_sample :
  checkout 1 [log "ok" VNone; stale_check; log "never" VNone]
    0 (VRef 50) (VRef 51) (PoolState 1 [] [])
  = (PoolState 2 [0] ["ok"; "stale"; "ok"; "fresh"; "never"], Ok 1).
Proof. reflexivity. Qed.

End CoreSample.

(** * Further properties of the source *)

(** ** [PoolEvents.accept_with]: errors, idempotence, stability *)

Section AcceptWithMore.

Import PoolEvents.

Implicit Types (h : gmap nat object) (target : value).








(** X2.  On class candidates the resolver is idempotent, provided [Pool]
    is a class that does not derive from [Engine]: what a class resolves
    to ([Pool], the class itself, or [None]) resolves to itself. *)
Theorem accept_with_class_idempotent h target r :
  isinstance_type h (VRef Pool) = true →
  issubclass h (VRef Pool) Engine = false →
  isinstance_type h target = true →
  accept_with h target = Ok r →
  accept_with h r = Ok r.
Proof.
  intros HP HPE Ht. unfold accept_with at 1. rewrite Ht.
  destruct (issubclass h target Engine) eqn:HE;
    [|destruct (issubclass h target Pool) eqn:HPl]; intros [= <-].
  - apply accept_with_pool_class; [done..|]. simpl.
    apply bool_decide_eq_true_2. unfold mro_of.
    destruct (h !! Pool) as [[[anc|c] d]|]; constructor.
  - by apply accept_with_pool_class.
  - done.
Qed.


End AcceptWithMore.

(** ** [EngineEvents.listen]: attribute errors and the reach of the swap *)

Section ListenMore.

Import EngineEvents.

Context {W : Type}.
Variable _listener_connection_cls : value → value → value.
Variable Events_listen : callable W → string → value → M W unit.

Local Abbreviation swap := (swap_connection_cls _listener_connection_cls).
Local Abbreviation listen :=
  (EngineEvents.listen _listener_connection_cls Events_listen).

(** The swap either leaves the store as it is or rewrites the
    [Connection] entry of the target's own dictionary. *)
Lemma swap_connection_cls_cases target (s s' : state W) r :
  swap target s = (s', r) →
  s' = s
  ∨ ∃ o k d disp,
      target = VRef o ∧ heap s !! o = Some (Object k d) ∧ r = Ok tt
      ∧ getattr (heap s) target "Connection" = Ok (VRef Connection)
      ∧ getattr (heap s) target "dispatch" = Ok disp
      ∧ s' = State (<[o := Object k (<["Connection" :=
                      _listener_connection_cls (VRef Connection) disp]> d)]>
                      (heap s))
                   (tables s) (fired s) (world s).
Proof.
  unfold swap_connection_cls, bind, read_heap, write_heap, ret.
  destruct (getattr (heap s) target "Connection") as [c|e] eqn:Hc;
    [|intros [= <- _]; by left].
  destruct (is_object c Connection) eqn:Hplain;
    [|intros [= <- _]; by left].
  destruct (getattr (heap s) target "dispatch") as [disp|e] eqn:Hd;
    [|intros [= <- _]; by left].
  destruct target as [| | | | |o]; try done. simpl setattr.
  destruct (heap s !! o) as [[k d]|] eqn:Ho; [|intros [= <- _]; by left].
  intros [= <- <-]. right. exists o, k, d, disp.
  destruct c as [| | | | |o']; try done. simpl in Hplain.
  apply bool_decide_eq_true_1 in Hplain as ->. by rewrite Ho.
Qed.

Lemma mro_lookup_insert_notin h o ob (classes : list nat) name :
  o ∉ classes →
  mro_lookup (<[o := ob]> h) classes name = mro_lookup h classes name.
Proof.
  induction classes as [|c rest IH]; [done|].
  intros [Hne Hrest]%not_elem_of_cons. simpl.
  rewrite lookup_insert_ne by done. by rewrite IH.
Qed.




(** X7.  The swap is local to the target: an object other than the
    target that does not inherit from it reads every attribute,
    [Connection] included, as before.  In particular, registering on
    one engine leaves the connection class of every other engine
    alone. *)
Theorem swap_connection_cls_isolated o o2 name (s s' : state W) r :
  swap (VRef o) s = (s', r) →
  o2 ≠ o →
  o ∉ EventCore.inherited_from (heap s) o2 →
  getattr (heap s') (VRef o2) name = getattr (heap s) (VRef o2) name.
Proof.
  intros [->|(o' & k & d & disp & [= <-] & Ho & -> & _ & _ & ->)]
    %swap_connection_cls_cases Hne Hchain; [done|]. simpl.
  rewrite lookup_insert_ne by done.
  unfold EventCore.inherited_from in Hchain.
  destruct (heap s !! o2) as [[k2 d2]|]; [|done].
  destruct (d2 !! name); [done|].
  assert (∀ c, mro_of (<[o := Object k (<["Connection" :=
                 _listener_connection_cls (VRef Connection) disp]> d)]>
                 (heap s)) c = mro_of (heap s) c) as Hmro.
  { intros c. apply (setattr_mro_of (heap s) o "Connection"
      (_listener_connection_cls (VRef Connection) disp)).
    simpl. by rewrite Ho. }
  destruct k2 as [anc|c].
  - by rewrite mro_lookup_insert_notin.
  - rewrite Hmro. by rewrite mro_lookup_insert_notin.
Qed.

(** X8.  Registering on a class reaches its instances: when the target
    is a class whose connection class is the plain [Connection], the
    swap writes the class dictionary, and an instance of that class
    without a [Connection] entry of its own reads the listener
    connection class from then on. *)
Theorem swap_connection_cls_on_class c anc dc i di disp (s : state W) :
  heap s !! c = Some (Object (KClass anc) dc) →
  heap s !! i = Some (Object (KInst c) di) →
  di !! "Connection" = None →
  getattr (heap s) (VRef c) "Connection" = Ok (VRef Connection) →
  getattr (heap s) (VRef c) "dispatch" = Ok disp →
  ∃ s1,
    swap (VRef c) s = (s1, Ok tt)
    ∧ getattr (heap s1) (VRef i) "Connection"
      = Ok (_listener_connection_cls (VRef Connection) disp)
    ∧ own_attr (heap s1) i "Connection" = None.
Proof.
  intros Hc Hi Hown Hconn Hdisp.
  assert (i ≠ c) as Hic by (intros ->; rewrite Hi in Hc; done).
  eexists. split; [by apply swap_connection_cls_plain|]. simpl.
  unfold own_attr. rewrite !lookup_insert_ne by done. rewrite Hi. simpl.
  rewrite Hown. split; [|done].
  unfold mro_of. rewrite lookup_insert_eq. simpl.
  rewrite lookup_insert_eq. simpl. by rewrite lookup_insert_eq.
Qed.

(** X12.  As long as the class built for listeners is never [Connection]
    itself, the first step of [listen] is idempotent on every store:
    run again on the store it left, it changes nothing and ends the same
    way.  However many listeners are registered on a target, its
    connection class is replaced at most once. *)
Theorem swap_connection_cls_idempotent target (s s1 : state W) r :
  (∀ c d, is_object (_listener_connection_cls c d) Connection = false) →
  swap target s = (s1, r) →
  swap target s1 = (s1, r).
Proof.
  intros Hfresh Hswap.
  destruct (swap_connection_cls_cases _ _ _ _ Hswap)
    as [->|(o & k & d & disp & -> & Ho & -> & _ & _ & ->)]; [done|].
  apply swap_connection_cls_replaced
    with (_listener_connection_cls (VRef Connection) disp); [|done].
  simpl. by rewrite lookup_insert_eq, lookup_insert_eq.
Qed.

End ListenMore.

(** ** The [wrap] closures of [EngineEvents.listen] *)

Section WrapMore.

Import EngineEvents.

Context {W : Type}.

Implicit Types (fn : callable W) (w : W).



(** X11.  Wrapping is idempotent: a wrapper around a wrapper behaves, on
    every argument list and every world, as the wrapper itself. *)
Theorem wrap_idempotent fn args w :
  wrap_before_execute (wrap_before_execute fn) args w
    = wrap_before_execute fn args w
  ∧ wrap_before_cursor_execute (wrap_before_cursor_execute fn) args w
    = wrap_before_cursor_execute fn args w.
Proof.
  split.
  - destruct args as [|a1 [|a2 [|a3 [|a4 [|? ?]]]]]; try done.
    unfold wrap_before_execute.
    by destruct (fn [a1; a2; a3; a4] w) as [w' [r|e]].
  - destruct args as [|a1 [|a2 [|a3 [|a4 [|a5 [|a6 [|? ?]]]]]]]; try done.
    unfold wrap_before_cursor_execute.
    by destruct (fn [a1; a2; a3; a4; a5; a6] w) as [w' [r|e]].
Qed.

End WrapMore.

(** ** The further properties on the sample stores *)

Section MoreSamples.

Import PoolEvents EngineEvents Sample Sample2.

Local Abbreviation swap := (swap_connection_cls _listener_connection_cls).
Local Abbreviation listen :=
  (EngineEvents.listen _listener_connection_cls EventCore.Events_listen).


Lemma accept_with_class_idempotent_witness :
  accept_with h0 (VRef Pool) = Ok (VRef Pool).
Proof.
  apply (accept_with_class_idempotent h0 (VRef Engine) (VRef Pool));
    reflexivity.
Defined.





Lemma swap_connection_cls_isolated_witness :
  getattr (<[10 := Object (KInst Engine)
                     (<["Connection" := VRef EventListenerConnection]>
                        {[ "pool" := VRef 11; "dispatch" := VRef 12 ]})]> h2)
          (VRef 14) "Connection"
  = getattr h2 (VRef 14) "Connection".
Proof.
  refine (swap_connection_cls_isolated _listener_connection_cls 10 14
            "Connection" s2
            (State (<[10 := Object (KInst Engine)
                       (<["Connection" := VRef EventListenerConnection]>
                          {[ "pool" := VRef 11; "dispatch" := VRef 12 ]})]> h2)
                   ∅ ∅ []) (Ok tt) _ _ _).
  - reflexivity.
  - discriminate.
  - compute_done.
Defined.

Lemma swap_connection_cls_on_class_witness :
  ∃ s1,
    swap (VRef Engine) s3 = (s1, Ok tt)
    ∧ getattr (heap s1) (VRef 14) "Connection"
      = Ok (_listener_connection_cls (VRef Connection) (VRef 12))
    ∧ own_attr (heap s1) 14 "Connection" = None.
Proof.
  apply (swap_connection_cls_on_class _listener_connection_cls
           Engine []
           {[ "Connection" := VRef Connection; "dispatch" := VRef 12 ]}
           14 ∅ (VRef 12) s3); reflexivity.
Defined.

Lemma swap_connection_cls_idempotent_witness :
  swap (VRef 10) (State h1 ∅ ∅ ([] : list string))
  = (State h1 ∅ ∅ [], Ok tt).
Proof.
  apply (swap_connection_cls_idempotent _listener_connection_cls
           (VRef 10) s0 (State h1 ∅ ∅ []) (Ok tt)).
  - intros c d. reflexivity.
  - reflexivity.
Defined.



End MoreSamples.
